(** * The deployer trait of camel-k ([pkg/trait/deployer.go])

    The trait registers one deferred post action per reconciliation pass
    ([Apply]), chosen by the phase of the integration, and defines the
    client patch [mergeFromPositivePatch] whose [Data] method computes the
    bytes sent to the API server for a JSON merge patch.

    Resources and patches are JSON documents.  A document is embedded as the
    tree of values it denotes: a Go [map[string]interface{}] is a finite map
    from strings to values ([gmap string json]), so that two documents that
    differ only in the order of their keys are equal.  A resource is held as
    the document it serializes to; what its Go type adds, the way the decoder
    writes into it, is the interface [GoType]. *)

From stdpp Require Import gmap strings list fin_maps.
From Stdlib Require Import ZArith.
Set Warnings "-register-all".

(** ** JSON documents

    Numbers are integers; the patch library reads them as [float64]
    ([float64_of_Z]). *)

Inductive json : Type :=
  | JNull
  | JBool (b : bool)
  | JNum (n : Z)
  | JStr (s : string)
  | JArr (l : list json)
  | JObj (m : gmap string json).

(** A resource (a [runtime.Object]) is identified with the JSON object it
    serializes to. *)
Abbreviation Object := (gmap string json).

Fixpoint json_size (v : json) : nat :=
  match v with
  | JArr l => S (foldr (λ x acc, json_size x + acc) 0 l)
  | JObj m => S (map_fold (λ _ x acc, json_size x + acc) 0 m)
  | _ => 1
  end.

Definition is_object (v : json) : bool :=
  match v with JObj _ => true | _ => false end.

Definition is_null (v : json) : bool :=
  match v with JNull => true | _ => false end.

(** The object stored in an optional value; everything else counts as the
    empty object (RFC 7386: a target that is not an object is replaced by an
    empty one before a patch object is merged into it). *)
Definition asObj (v : option json) : Object :=
  match v with Some (JObj m) => m | _ => ∅ end.

(** Structural equality of documents.  Two objects are equal when they have
    the same keys and no key carries different values. *)
Fixpoint json_eqb (a b : json) {struct a} : bool :=
  match a, b with
  | JNull, JNull => true
  | JBool x, JBool y => bool_decide (x = y)
  | JNum x, JNum y => bool_decide (x = y)
  | JStr x, JStr y => bool_decide (x = y)
  | JArr x, JArr y =>
      (fix go (x y : list json) {struct x} : bool :=
         match x, y with
         | [], [] => true
         | a :: x, b :: y => json_eqb a b && go x y
         | _, _ => false
         end) x y
  | JObj x, JObj y =>
      bool_decide (dom x = dom y) &&
      bool_decide (size (map_imap (λ k v,
        match y !! k with
        | Some w => if json_eqb v w then None else Some v
        | None => Some v
        end) x) = 0)
  | _, _ => false
  end.

(** The value at the end of a path of keys through nested objects. *)
Fixpoint lookup_path (p : list string) (v : json) : option json :=
  match p with
  | [] => Some v
  | k :: p' =>
      match v with
      | JObj m => m !! k ≫= lookup_path p'
      | _ => None
      end
  end.

(** [unmentioned p d]: walking [d] along [p] reaches an object that has no
    member for the next key, so [d] says nothing about the field at [p]. *)
Fixpoint unmentioned (p : list string) (d : json) : bool :=
  match p with
  | [] => false
  | k :: p' =>
      match d with
      | JObj m =>
          match m !! k with
          | None => true
          | Some v => unmentioned p' v
          end
      | _ => false
      end
  end.

(** [subobj d l]: every member [d] sets is present in [l] with the same
    value, nested objects being compared member by member ([d ⊆ l]). *)
Fixpoint subobj (d l : json) {struct d} : bool :=
  match d with
  | JObj dm =>
      match l with
      | JObj lm =>
          map_fold (λ k v acc,
            match lm !! k with
            | Some w => subobj v w
            | None => false
            end && acc) true dm
      | _ => false
      end
  | _ => json_eqb d l
  end.

(** ** Errors and results *)

Inductive error : Type :=
  | NotFound
  | ErrBadJSONDoc
  | ErrUnmarshalType
  | ErrNilObject
  | ErrOther (msg : string)
  | Wrap (cause : error) (message : string).

Inductive result (A : Type) : Type :=
  | Ok (a : A)
  | Err (e : error).
Arguments Ok {A} a.
Arguments Err {A} e.

Global Instance result_ret : MRet result := λ A a, Ok a.
Global Instance result_bind : MBind result := λ A B f m,
  match m with
  | Ok a => f a
  | Err e => Err e
  end.

(** ** Patch codec

    [json.Marshal], [jsonpatch.CreateMergePatch] and [json.Unmarshal] are
    library calls; they are embedded as the libraries compute them. *)

(** [json.Marshal]: the bytes of a document are identified with the
    document. *)
Definition Marshal (obj : Object) : result json := Ok (JObj obj).

(** The nearest [float64] of an integer (ties to even): the identity below
    [2^53], 53 significant bits above. *)
Definition float64_of_Z (n : Z) : Z :=
  let a := Z.abs n in
  if (a <? 2 ^ 53)%Z then n
  else
    let e := (Z.log2 a - 52)%Z in
    let q := Z.shiftr a e in
    let r := (a - Z.shiftl q e)%Z in
    let half := Z.shiftl 1 (e - 1) in
    let q' := if (half <? r)%Z || ((r =? half)%Z && Z.odd q) then (q + 1)%Z else q in
    (Z.sgn n * Z.shiftl q' e)%Z.

(** A document as the patch library reads it, into [map[string]interface{}]:
    every number is a [float64]. *)
Fixpoint decodeFloat (v : json) : json :=
  match v with
  | JNum n => JNum (float64_of_Z n)
  | JArr l => JArr (map decodeFloat l)
  | JObj m => JObj (decodeFloat <$> m)
  | _ => v
  end.

(** [matchesValue] of the patch library: values of the same kind that are
    equal; arrays element by element; objects on the keys of either, a
    missing member counting as [null]. *)
Fixpoint matchesValue (av bv : json) {struct av} : bool :=
  match av, bv with
  | JNull, JNull => true
  | JBool x, JBool y => bool_decide (x = y)
  | JNum x, JNum y => bool_decide (x = y)
  | JStr x, JStr y => bool_decide (x = y)
  | JArr x, JArr y =>
      (fix go (x y : list json) {struct x} : bool :=
         match x, y with
         | [], [] => true
         | a :: x, b :: y => matchesValue a b && go x y
         | _, _ => false
         end) x y
  | JObj x, JObj y =>
      bool_decide (size (map_imap (λ k v,
        if matchesValue v (default JNull (y !! k)) then None else Some v) x) = 0) &&
      bool_decide (size (map_imap (λ k w,
        match x !! k with
        | Some _ => None
        | None => if is_null w then None else Some w
        end) y) = 0)
  | _, _ => false
  end.

(** The entry of the delta for one key of the modified document ([getDiff]
    of the patch library; [None]: no entry).  An added key appears with its
    value, two objects are compared member by member and appear when the
    nested delta is not empty, anything else appears with the new value
    unless [matchesValue] holds. *)
Fixpoint diffValue (av : option json) (bv : json) {struct bv} : option json :=
  match av with
  | None => Some bv
  | Some av =>
      match bv with
      | JObj bm =>
          match av with
          | JObj am =>
              let dst :=
                map_imap (λ k bv', diffValue (am !! k) bv') bm
                ∪ ((λ _, JNull) <$> (am ∖ bm)) in
              if decide (0 < size dst) then Some (JObj dst) else None
          | _ => Some bv
          end
      | _ => if matchesValue av bv then None else Some bv
      end
  end.

(** The raw merge-patch delta of two objects: changed and added keys with
    their new values, keys of [a] absent from [b] with an explicit [null]. *)
Definition getDiff (a b : Object) : Object :=
  map_imap (λ k bv, diffValue (a !! k) bv) b ∪ ((λ _, JNull) <$> (a ∖ b)).

(** [jsonpatch.CreateMergePatch] on two serialized objects. *)
Definition CreateMergePatch (originalJSON modifiedJSON : json) : result json :=
  match decodeFloat originalJSON, decodeFloat modifiedJSON with
  | JObj a, JObj b => Ok (JObj (getDiff a b))
  | _, _ => Err ErrBadJSONDoc
  end.

(** Folding a merge patch into a value (RFC 7386), as the server does: a
    [null] removes the member, an object is merged member by member into the
    target (taken as the empty object when it is not one), any other value
    replaces the target. *)
Fixpoint mergeValue (target : option json) (patch : json) {struct patch} : json :=
  match patch with
  | JObj p =>
      let t := asObj target in
      JObj (map_imap (λ k pv,
              match pv with
              | JNull => None
              | _ => Some (mergeValue (t !! k) pv)
              end) p ∪ (t ∖ p))
  | _ => patch
  end.

Definition MergePatch (target patch : Object) : Object :=
  asObj (Some (mergeValue (Some (JObj target)) (JObj patch))).

(** *** Decoding into a Go value

    [json.Unmarshal] writes into the Go value it is given, and what it does
    with a JSON object or a [null] depends on the Go type found there.  The
    source fixes no type ([runtime.Object] is an interface), so the type is an
    interface here too: what the decoder finds at a path of keys. *)

Inductive GoKind : Type :=
  | KStruct   (* a struct: members are decoded into the fields that exist *)
  | KMap      (* a Go map: every member is decoded into a fresh zero element *)
  | KAny.     (* [interface{}]: an object is decoded into a fresh map *)

Class GoType : Type := {
  (** the kind of the Go value that receives a JSON object at this path *)
  kind_of : list string → GoKind;
  (** the serialization of the zero element of the Go map around this path
      ([""] for [map[string]string], [null] for [map[string]interface{}]) *)
  zero_of : list string → json;
  (** what is left of a struct field that holds a value and receives [null]
      (the value for a plain field, [null] or nothing for a pointer) *)
  cleared : list string → json → option json;
}.

(** One member [k : dv] of a JSON object decoded into the Go value at [p]
    whose serialization is [o]. *)
Definition decodeMember `{GoType}
    (decode : list string → option json → json → json)
    (kind : GoKind) (p : list string) (o : Object) (k : string) (dv : json)
    : option json :=
  match kind with
  | KMap =>
      match dv with
      | JNull => Some (zero_of (p ++ [k]))
      | _ => Some (decode (p ++ [k]) (Some (zero_of (p ++ [k]))) dv)
      end
  | _ =>
      match dv with
      | JNull =>
          match o !! k with
          | None => None
          | Some JNull => Some JNull
          | Some v => cleared (p ++ [k]) v
          end
      | _ => Some (decode (p ++ [k]) (o !! k) dv)
      end
  end.

(** The serialization of the Go value at [p], which was [cur], after [data]
    is decoded into it.  Scalars and arrays are stored as they come. *)
Fixpoint decodeValue `{GoType} (p : list string) (cur : option json) (data : json)
    {struct data} : json :=
  match data with
  | JObj d =>
      match kind_of p with
      | KAny => data
      | kind =>
          JObj (map_imap (decodeMember decodeValue kind p (asObj cur)) d
                ∪ (asObj cur ∖ d))
      end
  | _ => data
  end.

Definition decodeInto `{GoType} (kind : GoKind) (p : list string) (o d : Object) : Object :=
  map_imap (decodeMember decodeValue kind p o) d ∪ (o ∖ d).

(** [json.Unmarshal(data, out)]: [out] points to a struct. *)
Definition Unmarshal `{GoType} (data : json) (out : Object) : result Object :=
  match data with
  | JObj d => Ok (decodeInto KStruct [] out d)
  | _ => Err ErrUnmarshalType
  end.

(** Objects are values here, so a deep copy is the object itself; the
    aliasing a copy protects against is modelled in [Module Heap]. *)
Definition DeepCopyObject (obj : Object) : Object := obj.

(** Go types for the examples: plain structs all the way down; a ConfigMap,
    whose [metadata.labels], [metadata.annotations] and [data] are
    [map[string]string]; a struct with a member [free] of type
    [map[string]interface{}]. *)
Definition structType : GoType :=
  {| kind_of := λ _, KStruct; zero_of := λ _, JNull; cleared := λ _ v, Some v |}.

Definition configMapType : GoType :=
  {| kind_of := λ p,
       if bool_decide (p = ["metadata"; "labels"] ∨ p = ["metadata"; "annotations"]
                       ∨ p = ["data"])
       then KMap else KStruct;
     zero_of := λ _, JStr "";
     cleared := λ _ v, Some v |}.

Definition freeType : GoType :=
  {| kind_of := λ p,
       match p with
       | ["free"] => KMap
       | "free" :: _ => KAny
       | _ => KStruct
       end;
     zero_of := λ _, JNull;
     cleared := λ _ v, Some v |}.

(** ** The positive merge patch *)

Inductive PatchType : Type :=
  | JSONPatchType
  | MergePatchType
  | StrategicMergePatchType
  | ApplyPatchType.

Record mergeFromPositivePatch : Type := { from : Object }.

Definition Type_ (s : mergeFromPositivePatch) : PatchType := MergePatchType.

Definition Data `{GoType} (s : mergeFromPositivePatch) (obj : Object) : result json :=
  originalJSON ← Marshal (from s);
  modifiedJSON ← Marshal obj;
  patch ← CreateMergePatch originalJSON modifiedJSON;
  let out := DeepCopyObject obj in
  out ← Unmarshal patch out;
  Marshal out.

Definition mergeFrom (obj : Object) : mergeFromPositivePatch := {| from := obj |}.

(** What the server does with the bytes of a merge patch: it folds them into
    the live object. *)
Definition applyMergePatch (live : Object) (data : json) : result Object :=
  match data with
  | JObj p => Ok (MergePatch live p)
  | _ => Err ErrBadJSONDoc
  end.

(** [out] at the end of [Data]: the copy of the desired object [D] after the
    raw delta from the live object [L] is decoded into it. *)
Definition candidate `{GoType} (L D : Object) : Object :=
  decodeInto KStruct [] D (getDiff (decodeFloat <$> L) (decodeFloat <$> D)).


(** ** [Data] on shared objects

    In the source [s.from] and [obj] are pointers to objects that the caller
    keeps using, and [json.Unmarshal] writes into the object it is given.  The
    heap maps a location to the object stored there; a computation threads the
    heap and may fail. *)

Module Heap.

Definition loc := positive.
Abbreviation heap := (gmap positive Object).

(* The codec on values, under the names this module reuses for its own
   operations on locations. *)
Local Abbreviation marshalValue := Marshal.
Local Abbreviation createMergePatchValue := CreateMergePatch.
Local Abbreviation unmarshalValue := Unmarshal.

Definition M (A : Type) : Type := heap → heap * result A.

Definition ret {A} (a : A) : M A := λ h, (h, Ok a).

Definition bind {A B} (m : M A) (f : A → M B) : M B := λ h,
  match m h with
  | (h', Ok a) => f a h'
  | (h', Err e) => (h', Err e)
  end.

Notation "x ←ₕ m ; k" := (bind m (λ x, k))
  (at level 20, m at level 100, k at level 200, right associativity,
   format "x  ←ₕ  m ;  '/' k").

(** [json.Marshal] reads the object at [l]. *)
Definition Marshal (l : loc) : M json := λ h,
  match h !! l with
  | Some o => (h, marshalValue o)
  | None => (h, Err ErrNilObject)
  end.

Definition CreateMergePatch (originalJSON modifiedJSON : json) : M json := λ h,
  (h, createMergePatchValue originalJSON modifiedJSON).

(** [DeepCopyObject] stores a copy at a location that is not in use. *)
Definition DeepCopyObject (l : loc) : M loc := λ h,
  match h !! l with
  | Some o => let l' := fresh (dom h) in (<[l' := o]> h, Ok l')
  | None => (h, Err ErrNilObject)
  end.

(** [json.Unmarshal] overwrites the object at [l] with the result. *)
Definition Unmarshal `{GoType} (data : json) (l : loc) : M unit := λ h,
  match h !! l with
  | Some o =>
      match unmarshalValue data o with
      | Ok o' => (<[l := o']> h, Ok tt)
      | Err e => (h, Err e)
      end
  | None => (h, Err ErrNilObject)
  end.

Record mergeFromPositivePatch : Type := { from : loc }.

Definition Data `{GoType} (s : mergeFromPositivePatch) (obj : loc) : M json :=
  originalJSON ←ₕ Marshal (from s);
  modifiedJSON ←ₕ Marshal obj;
  patch ←ₕ CreateMergePatch originalJSON modifiedJSON;
  out ←ₕ DeepCopyObject obj;
  _ ←ₕ Unmarshal patch out;
  Marshal out.

Definition mergeFrom (obj : loc) : mergeFromPositivePatch := {| from := obj |}.

End Heap.

(** ** The phase dispatcher *)

Definition IntegrationPhase := string.

(** Modelled from the spec: the phase constants of [v1alpha1], which the
    source names and declares elsewhere.  The [switch] of [Apply] requires
    them to be pairwise distinct; nothing else about their values is used. *)
Definition IntegrationPhaseInitialization : IntegrationPhase := "Initialization".
Definition IntegrationPhaseDeploying : IntegrationPhase := "Deploying".
Definition IntegrationPhaseRunning : IntegrationPhase := "Running".

Record v1alpha1_IntegrationStatus : Type := { Phase : IntegrationPhase }.
Record v1alpha1_Integration : Type := { Status : v1alpha1_IntegrationStatus }.

(** The two closures [Apply] can register, each represented by its code;
    [runPostAction] below runs them. *)
Inductive PostAction : Type :=
  | ReplaceAction
  | PatchAction.

Global Instance PostAction_eq_dec : EqDecision PostAction.
Proof. solve_decision. Defined.

Record Environment : Type := {
  Integration : v1alpha1_Integration;
  Resources : list Object;
  PostActions : list PostAction;
}.

Definition with_PostActions (e : Environment) (acts : list PostAction) : Environment :=
  {| Integration := Integration e; Resources := Resources e; PostActions := acts |}.

(** Modelled from the spec: [Environment.IntegrationInPhase], declared outside
    these sources: the phase of the integration is one of the given ones. *)
Definition IntegrationInPhase (e : Environment) (phases : list IntegrationPhase) : bool :=
  existsb (λ phase, bool_decide (Phase (Status (Integration e)) = phase)) phases.

(** The trait: its id (all that is kept of [BaseTrait]) and the [kind]
    property. *)
Record deployerTrait : Type := { BaseTrait : string; Kind : string }.

Definition newDeployerTrait : deployerTrait :=
  {| BaseTrait := "deployer"; Kind := "" |}.

Definition IsPlatformTrait (t : deployerTrait) : bool := true.

Definition Configure (t : deployerTrait) (e : Environment) : bool * option error :=
  (IntegrationInPhase e
     [IntegrationPhaseInitialization; IntegrationPhaseDeploying; IntegrationPhaseRunning],
   None).

(** [Apply] appends to [e.PostActions] and returns [nil]. *)
Definition Apply (t : deployerTrait) (e : Environment) : Environment * option error :=
  let phase := Phase (Status (Integration e)) in
  if decide (phase = IntegrationPhaseInitialization ∨ phase = IntegrationPhaseDeploying) then
    (with_PostActions e (PostActions e ++ [ReplaceAction]), None)
  else if decide (phase = IntegrationPhaseRunning) then
    (with_PostActions e (PostActions e ++ [PatchAction]), None)
  else (e, None).

(** ** The post actions *)

Record ObjectKey : Type := { Namespace : string; Name : string }.

Global Instance ObjectKey_eq_dec : EqDecision ObjectKey.
Proof. solve_decision. Defined.

Global Instance ObjectKey_countable : Countable ObjectKey.
Proof.
  refine (inj_countable' (λ k, (Namespace k, Name k))
            (λ p, {| Namespace := p.1; Name := p.2 |}) _).
  by intros [].
Defined.

(** [client.Client]: the two operations the patch action calls, over the
    state [St] of whatever the client talks to.  [Get] receives the object
    the caller wants filled in and returns what it holds afterwards. *)
Record Client (St : Type) : Type := {
  Get : St → ObjectKey → Object → St * result Object;
  Patch : St → Object → mergeFromPositivePatch → St * option error;
}.
Arguments Get {St} _ _ _ _.
Arguments Patch {St} _ _ _ _.

Section PostActions.
Context {St : Type}.
(** [env.Client]. *)
Variable c : Client St.
(** [kubernetes.ReplaceResources] and [client.ObjectKeyFromObject], both
    declared outside these sources. *)
Variable ReplaceResources : St → list Object → St * option error.
Variable ObjectKeyFromObject : Object → result ObjectKey.

Definition replaceAll (env : Environment) (st : St) : St * option error :=
  match ReplaceResources st (Resources env) with
  | (st', Some err) => (st', Some (Wrap err "error during replace resource"))
  | (st', None) => (st', None)
  end.

(** One iteration of the loop of the patch action; [None] lets the loop go
    on, [Some err] is the [return err] that leaves it. *)
Definition patchOne (st : St) (resource : Object) : St * option error :=
  match ObjectKeyFromObject resource with
  | Err err => (st, Some err)
  | Ok key =>
      let object := DeepCopyObject resource in
      match Get c st key object with
      | (st1, Err err) => (st1, Some err)
      | (st1, Ok object) =>
          match Patch c st1 resource (mergeFrom object) with
          | (st2, Some err) => (st2, Some (Wrap err "error during patch resource"))
          | (st2, None) => (st2, None)
          end
      end
  end.

Fixpoint patchLoop (st : St) (items : list Object) : St * option error :=
  match items with
  | [] => (st, None)
  | resource :: rest =>
      match patchOne st resource with
      | (st', Some err) => (st', Some err)
      | (st', None) => patchLoop st' rest
      end
  end.

Definition patchAll (env : Environment) (st : St) : St * option error :=
  patchLoop st (Resources env).

Definition runPostAction (a : PostAction) (env : Environment) (st : St) : St * option error :=
  match a with
  | ReplaceAction => replaceAll env st
  | PatchAction => patchAll env st
  end.

End PostActions.

(** ** An in-memory store

    A client over a map from keys to live objects, with the log of the calls
    it served.  [Get] fails with [NotFound] on a missing key; [Patch] asks the
    patch for its bytes and folds them into the live object. *)

Inductive Call : Type :=
  | CallGet (key : ObjectKey)
  | CallPatch (key : ObjectKey) (data : json)
  | CallReplace (key : ObjectKey).

Record Store : Type := {
  live : gmap ObjectKey Object;
  calls : list Call;
}.

Definition logged (st : Store) (call : Call) : Store :=
  {| live := live st; calls := calls st ++ [call] |}.

Definition stringField (m : Object) (k : string) : string :=
  match m !! k with
  | Some (JStr s) => s
  | _ => ""
  end.

Definition memKey (obj : Object) : result ObjectKey :=
  match obj !! "metadata" with
  | Some (JObj meta) =>
      Ok {| Namespace := stringField meta "namespace"; Name := stringField meta "name" |}
  | _ => Err (ErrOther "object does not implement the Object interfaces")
  end.

Definition memGet (st : Store) (key : ObjectKey) (into : Object) : Store * result Object :=
  let st := logged st (CallGet key) in
  match live st !! key with
  | Some o => (st, Ok o)
  | None => (st, Err NotFound)
  end.

Definition memPatch `{GoType} (st : Store) (obj : Object) (patch : mergeFromPositivePatch)
    : Store * option error :=
  match memKey obj with
  | Err err => (st, Some err)
  | Ok key =>
      match Data patch obj with
      | Err err => (st, Some err)
      | Ok data =>
          let st := logged st (CallPatch key data) in
          match live st !! key with
          | None => (st, Some NotFound)
          | Some o =>
              match Type_ patch with
              | MergePatchType =>
                  match applyMergePatch o data with
                  | Err err => (st, Some err)
                  | Ok o' =>
                      ({| live := <[key := o']> (live st); calls := calls st |}, None)
                  end
              | _ => (st, Some (ErrOther "unsupported patch type"))
              end
          end
      end
  end.

(** Modelled from the spec: the resource replacer ([replaceAll]) on this
    store: a create-or-update per resource, in order, the first failure
    leaving the rest untouched. *)
Fixpoint memReplace (st : Store) (items : list Object) : Store * option error :=
  match items with
  | [] => (st, None)
  | obj :: rest =>
      match memKey obj with
      | Err err => (st, Some err)
      | Ok key =>
          let st := logged st (CallReplace key) in
          memReplace {| live := <[key := obj]> (live st); calls := calls st |} rest
      end
  end.

Definition memClient `{GoType} : Client Store := {| Get := memGet; Patch := memPatch |}.

(** ** Running example

    The live object [{name: svc, replicas: 3, status: {observedGeneration: 5}}]
    and the desired object [{name: svc, replicas: 5}]. *)

Definition exLive : Object :=
  {[ "name" := JStr "svc"; "replicas" := JNum 3;
     "status" := JObj {[ "observedGeneration" := JNum 5 ]} ]}.

Definition exDesired : Object :=
  {[ "name" := JStr "svc"; "replicas" := JNum 5 ]}.

Definition exNaive : Object :=
  {[ "replicas" := JNum 5; "status" := JNull ]}.

Definition exPatched : Object :=
  {[ "name" := JStr "svc"; "replicas" := JNum 5;
     "status" := JObj {[ "observedGeneration" := JNum 5 ]} ]}.

(** A heap with the live object at location 1 and the desired one at 2. *)
Definition exHeap : Heap.heap := {[ 1%positive := exLive; 2%positive := exDesired ]}.

(** An environment in a given phase, nothing registered yet. *)
Definition exEnv (phase : IntegrationPhase) (items : list Object) : Environment :=
  {| Integration := {| Status := {| Phase := phase |} |};
     Resources := items;
     PostActions := [] |}.

(** Resources with an identity, for the post actions. *)
Definition exNamed (name : string) (replicas : Z) : Object :=
  {[ "metadata" := JObj {[ "name" := JStr name ]}; "replicas" := JNum replicas ]}.

Definition exKey (name : string) : ObjectKey := {| Namespace := ""; Name := name |}.

(** The store holds [a] and [c], each with a defaulted [status]; [b] is
    missing. *)
Definition exStore : Store :=
  {| live := {[ exKey "a" := <["status" := JStr "ok"]> (exNamed "a" 3);
                exKey "c" := <["status" := JStr "ok"]> (exNamed "c" 3) ]};
     calls := [] |}.

Definition exStore1 : Store :=
  {| live := {[ exKey "a" := <["status" := JStr "ok"]> (exNamed "a" 5);
                exKey "c" := <["status" := JStr "ok"]> (exNamed "c" 3) ]};
     calls := [CallGet (exKey "a"); CallPatch (exKey "a") (JObj (exNamed "a" 5))] |}.

Definition exStore2 : Store := logged exStore1 (CallGet (exKey "b")).

(** A ConfigMap whose live labels have one more entry than the desired
    ones. *)
Definition exLabelsLive : Object :=
  {[ "metadata" := JObj {[ "labels" := JObj {[ "a" := JStr "1"; "b" := JStr "2" ]} ]} ]}.

Definition exLabelsDesired : Object :=
  {[ "metadata" := JObj {[ "labels" := JObj {[ "b" := JStr "2" ]} ]} ]}.

Definition exLabelsPatch : Object :=
  {[ "metadata" := JObj {[ "labels" := JObj {[ "a" := JStr ""; "b" := JStr "2" ]} ]} ]}.




(** ** Induction on documents *)

Lemma json_size_lookup (m : Object) k v :
  m !! k = Some v → json_size v < json_size (JObj m).
Proof.
  intros Hk. simpl.
  rewrite <-(insert_delete_id m k v) by done.
  rewrite map_fold_insert_L.
  - lia.
  - intros. lia.
  - apply lookup_delete_eq.
Qed.

Lemma json_size_elem (l : list json) v :
  v ∈ l → json_size v < json_size (JArr l).
Proof.
  simpl. induction 1 as [x l|x y l _ IH]; simpl; lia.
Qed.

Lemma json_ind' (P : json → Prop) :
  P JNull →
  (∀ b, P (JBool b)) →
  (∀ n, P (JNum n)) →
  (∀ s, P (JStr s)) →
  (∀ l, Forall P l → P (JArr l)) →
  (∀ m, map_Forall (λ _, P) m → P (JObj m)) →
  ∀ v, P v.
Proof.
  intros Hnull Hbool Hnum Hstr Harr Hobj v.
  remember (json_size v) as n eqn:Hn. revert v Hn.
  induction (lt_wf n) as [n _ IH]. intros v ->.
  destruct v as [| | | |l|m]; auto.
  - apply Harr, Forall_forall. intros x Hx.
    eapply IH; [|reflexivity]. by apply json_size_elem.
  - apply Hobj. intros k x Hk.
    eapply IH; [|reflexivity]. by eapply json_size_lookup.
Qed.

Lemma json_eqb_arr_spec (x y : list json) :
  Forall (λ a, ∀ b, json_eqb a b = true ↔ a = b) x →
  json_eqb (JArr x) (JArr y) = true ↔ x = y.
Proof.
  intros HF. revert y. induction HF as [|a x Ha _ IH]; intros [|b y]; simpl;
    try (split; [done|congruence]); try done.
  rewrite andb_true_iff, Ha. simpl in IH. rewrite IH.
  split; [by intros [-> ->]|by intros [= -> ->]].
Qed.

Lemma json_eqb_obj_spec (x y : Object) :
  map_Forall (λ _ a, ∀ b, json_eqb a b = true ↔ a = b) x →
  json_eqb (JObj x) (JObj y) = true ↔ x = y.
Proof.
  intros HF. simpl.
  rewrite andb_true_iff, !bool_decide_eq_true, map_size_empty_iff.
  split.
  - intros [Hdom Hmis]. apply map_eq. intros k.
    pose proof (f_equal (.!! k) Hmis) as Hk. simpl in Hk.
    rewrite map_lookup_imap, lookup_empty in Hk.
    destruct (x !! k) as [v|] eqn:Hx; simpl in Hk.
    + destruct (y !! k) as [w|] eqn:Hy; [|done].
      destruct (json_eqb v w) eqn:Hvw; [|done].
      apply (HF k v Hx) in Hvw. by subst.
    + symmetry. apply not_elem_of_dom. rewrite <-Hdom.
      by apply not_elem_of_dom.
  - intros <-. split; [done|]. apply map_eq. intros k.
    rewrite map_lookup_imap, lookup_empty.
    destruct (x !! k) as [v|] eqn:Hx; simpl; [|done].
    assert (json_eqb v v = true) as -> by by apply (HF k v Hx).
    done.
Qed.

Lemma json_eqb_spec (a b : json) : json_eqb a b = true ↔ a = b.
Proof.
  revert b. induction a as [|x|x|x|x IH|x IH] using json_ind'; intros b.
  - destruct b; simpl; split; congruence.
  - destruct b; simpl; rewrite ?bool_decide_eq_true; split; congruence.
  - destruct b; simpl; rewrite ?bool_decide_eq_true; split; congruence.
  - destruct b; simpl; rewrite ?bool_decide_eq_true; split; congruence.
  - destruct b as [| | | |y|]; try (simpl; split; congruence).
    rewrite json_eqb_arr_spec by done. split; congruence.
  - destruct b as [| | | | |y]; try (simpl; split; congruence).
    rewrite json_eqb_obj_spec by done. split; congruence.
Qed.

Lemma json_eqb_refl a : json_eqb a a = true.
Proof. by apply json_eqb_spec. Qed.

Global Instance json_eq_dec : EqDecision json.
Proof.
  intros a b. destruct (json_eqb a b) eqn:E.
  - left. by apply json_eqb_spec.
  - right. intros H. apply json_eqb_spec in H. congruence.
Defined.

(** ** Members of folds *)

Lemma map_fold_andb_true {A} (f : string → A → bool) (m : gmap string A) :
  map_fold (λ k v acc, f k v && acc) true m = true ↔
  ∀ k v, m !! k = Some v → f k v = true.
Proof.
  induction m as [|k v m Hk IH] using map_ind.
  - rewrite map_fold_empty. split; [|done]. intros _ k v. by rewrite lookup_empty.
  - rewrite map_fold_insert_L; [|intros; by rewrite !andb_assoc, (andb_comm (f _ _))|done].
    rewrite andb_true_iff, IH. split.
    + intros [Hv Hm] k' v'. rewrite lookup_insert_Some.
      intros [[<- <-]|[_ ?]]; eauto.
    + intros H. split.
      * apply H. by rewrite lookup_insert_eq.
      * intros k' v' Hk'. apply H. rewrite lookup_insert_ne; [done|].
        intros <-. congruence.
Qed.

Lemma subobj_obj (dm lm : Object) :
  subobj (JObj dm) (JObj lm) = true ↔
  ∀ k v, dm !! k = Some v → ∃ w, lm !! k = Some w ∧ subobj v w = true.
Proof.
  simpl.
  rewrite (map_fold_andb_true
    (λ k v, match lm !! k with Some w => subobj v w | None => false end)).
  split; intros H k v Hk; specialize (H k v Hk).
  - destruct (lm !! k) as [w|]; [eauto|done].
  - destruct H as (w & -> & ?). done.
Qed.

Lemma subobj_leaf (v w : json) :
  is_object v = false → subobj v w = true ↔ w = v.
Proof.
  intros Hv. destruct v; try done;
    (split; [by intros ->%json_eqb_spec | intros ->; apply json_eqb_refl]).
Qed.

(** ** Pointwise behaviour of the codec *)


Lemma mergeValue_not_obj (target : option json) (v : json) :
  is_object v = false → mergeValue target v = v.
Proof. by destruct v. Qed.

Lemma MergePatch_lookup (target patch : Object) (k : string) :
  MergePatch target patch !! k =
  match patch !! k with
  | None => target !! k
  | Some JNull => None
  | Some pv => Some (mergeValue (target !! k) pv)
  end.
Proof.
  unfold MergePatch. simpl.
  rewrite lookup_union, map_lookup_imap, lookup_difference.
  destruct (patch !! k) as [pv|] eqn:Hp; simpl.
  - destruct pv; simpl; try done.
  - by destruct (target !! k).
Qed.

Lemma MergePatch_empty (target : Object) : MergePatch target ∅ = target.
Proof. apply map_eq. intros k. by rewrite MergePatch_lookup, lookup_empty. Qed.

Lemma getDiff_lookup (a b : Object) (k : string) :
  getDiff a b !! k =
  match b !! k with
  | Some bv => diffValue (a !! k) bv
  | None => (λ _, JNull) <$> a !! k
  end.
Proof.
  unfold getDiff.
  rewrite lookup_union, map_lookup_imap, lookup_fmap, lookup_difference.
  destruct (b !! k) as [bv|] eqn:Hb; simpl.
  - by destruct (diffValue (a !! k) bv).
  - by destruct (a !! k).
Qed.

Lemma diffValue_added (bv : json) : diffValue None bv = Some bv.
Proof. by destruct bv. Qed.

Lemma diffValue_obj (am bm : Object) :
  diffValue (Some (JObj am)) (JObj bm) =
  if decide (0 < size (getDiff am bm)) then Some (JObj (getDiff am bm)) else None.
Proof. reflexivity. Qed.

Lemma diffValue_leaf (av bv : json) :
  is_object bv = false →
  diffValue (Some av) bv = if matchesValue av bv then None else Some bv.
Proof. by destruct bv. Qed.

Lemma diffValue_kind_change (av : json) (bm : Object) :
  is_object av = false → diffValue (Some av) (JObj bm) = Some (JObj bm).
Proof. by destruct av. Qed.



Lemma matchesValue_arr_refl (x : list json) :
  Forall (λ a, matchesValue a a = true) x → matchesValue (JArr x) (JArr x) = true.
Proof.
  induction 1 as [|a x Ha _ IH]; simpl; [done|].
  rewrite Ha. exact IH.
Qed.

Lemma matchesValue_refl (v : json) : matchesValue v v = true.
Proof.
  induction v as [|b|n|s|x IH|x IH] using json_ind'; simpl;
    try (by rewrite ?bool_decide_eq_true).
  - by apply matchesValue_arr_refl.
  - rewrite andb_true_iff, !bool_decide_eq_true, !map_size_empty_iff.
    split; apply map_eq; intros k; rewrite map_lookup_imap, lookup_empty.
    + destruct (x !! k) as [v|] eqn:Hk; simpl; [|done].
      by rewrite (IH k v Hk).
    + by destruct (x !! k).
Qed.

Lemma decodeFloat_lookup (D : Object) k :
  (decodeFloat <$> D) !! k = decodeFloat <$> D !! k.
Proof. apply lookup_fmap. Qed.

Lemma decodeFloat_null (v : json) : decodeFloat v = JNull → v = JNull.
Proof. by destruct v. Qed.

Lemma getDiff_self_aux (v : json) :
  ∀ D, v = JObj D → getDiff D D = ∅.
Proof.
  induction v as [| | | | |m IH] using json_ind'; intros D Hv; try done.
  injection Hv as <-. apply map_eq. intros k.
  rewrite getDiff_lookup, lookup_empty.
  destruct (m !! k) as [x|] eqn:Hk; [|done].
  destruct (is_object x) eqn:Hobj.
  - destruct x as [| | | | |d]; try done.
    rewrite diffValue_obj, (IH k _ Hk d eq_refl).
    by rewrite decide_False by (rewrite map_size_empty; lia).
  - by rewrite diffValue_leaf, matchesValue_refl.
Qed.

Lemma getDiff_self (D : Object) : getDiff D D = ∅.
Proof. by eapply getDiff_self_aux. Qed.

(** An entry of the raw delta is the new value itself, or the delta of two
    nested objects. *)
Lemma diffValue_Some (av : option json) (bv x : json) :
  diffValue av bv = Some x →
  x = bv ∨ ∃ am bm, av = Some (JObj am) ∧ bv = JObj bm ∧ x = JObj (getDiff am bm).
Proof.
  destruct av as [av|]; [|rewrite diffValue_added; left; congruence].
  destruct (is_object bv) eqn:Hb.
  - destruct bv as [| | | | |bm]; try done.
    destruct (is_object av) eqn:Ha.
    + destruct av as [| | | | |am]; try done.
      rewrite diffValue_obj. case_decide; [|done].
      intros [= <-]. right. eauto.
    + rewrite diffValue_kind_change by done. left; congruence.
  - rewrite diffValue_leaf by done. destruct (matchesValue av bv); [done|].
    left; congruence.
Qed.

(** The raw delta has a [null] for a key only where the modified document
    has none or a [null]. *)
Lemma getDiff_null (a b : Object) k :
  getDiff a b !! k = Some JNull → b !! k = None ∨ b !! k = Some JNull.
Proof.
  rewrite getDiff_lookup. destruct (b !! k) as [bv|]; [|by left].
  intros [->|(am & bm & _ & _ & ?)]%diffValue_Some; [by right|done].
Qed.

Lemma getDiff_entry (a b : Object) k x :
  getDiff a b !! k = Some x → x ≠ JNull → is_Some (b !! k).
Proof.
  rewrite getDiff_lookup. destruct (b !! k) as [bv|]; [eauto|].
  destruct (a !! k); simpl; [|done]. by intros [= <-].
Qed.

(** ** The decoder *)

Section Decoder.
Context `{T : GoType}.

Lemma decodeInto_lookup (kind : GoKind) p (o d : Object) k :
  decodeInto kind p o d !! k =
  match d !! k with
  | Some dv => decodeMember decodeValue kind p o k dv
  | None => o !! k
  end.
Proof.
  unfold decodeInto.
  rewrite lookup_union, map_lookup_imap, lookup_difference.
  destruct (d !! k) as [dv|]; simpl.
  - by destruct (decodeMember decodeValue kind p o k dv).
  - by destruct (o !! k).
Qed.

Lemma decodeInto_empty (kind : GoKind) p (o : Object) : decodeInto kind p o ∅ = o.
Proof. apply map_eq. intros k. by rewrite decodeInto_lookup, lookup_empty. Qed.


Lemma Data_candidate (L D : Object) :
  Data (mergeFrom L) D = Ok (JObj (candidate L D)).
Proof. reflexivity. Qed.

(** The object [Data] serializes has the top-level members of the desired
    object, no more and no fewer. *)
Lemma candidate_is_Some (L D : Object) k :
  is_Some (candidate L D !! k) ↔ is_Some (D !! k).
Proof.
  unfold candidate. rewrite decodeInto_lookup.
  destruct (getDiff (decodeFloat <$> L) (decodeFloat <$> D) !! k) as [dv|] eqn:HR;
    [|done].
  destruct (decide (dv = JNull)) as [->|Hdv].
  - apply getDiff_null in HR. rewrite decodeFloat_lookup in HR. simpl.
    destruct (D !! k) as [v|]; simpl in HR.
    + destruct HR as [?|[= ->%decodeFloat_null]]; [done|]. split; eauto.
    + split; intros [? ?]; done.
  - pose proof (getDiff_entry _ _ _ _ HR Hdv) as HD.
    rewrite decodeFloat_lookup in HD. apply fmap_is_Some in HD.
    split; [done|]. intros _. simpl. destruct dv; try done; eauto.
Qed.

Lemma candidate_dom (L D : Object) : dom (candidate L D) = dom D.
Proof.
  apply set_eq. intros k. rewrite !elem_of_dom. apply candidate_is_Some.
Qed.

Lemma candidate_empty_iff (L D : Object) : candidate L D = ∅ ↔ D = ∅.
Proof.
  rewrite <-!dom_empty_iff_L. by rewrite candidate_dom.
Qed.

End Decoder.

Lemma is_object_decodeFloat (v : json) : is_object (decodeFloat v) = is_object v.
Proof. by destruct v. Qed.



Section StructDecoder.
Context `{T : GoType}.


(** A member the live object holds with the same value has no entry in the
    delta and stays as the desired object has it. *)
Lemma candidate_unchanged_member (L D : Object) k v :
  D !! k = Some v → is_object v = false → L !! k = Some v →
  candidate L D !! k = Some v.
Proof.
  intros HD Hv HL. unfold candidate.
  rewrite decodeInto_lookup, getDiff_lookup, !decodeFloat_lookup, HD, HL. simpl.
  rewrite diffValue_leaf by by rewrite is_object_decodeFloat.
  by rewrite matchesValue_refl.
Qed.

(** Where every Go value is a struct, decoding the delta into the desired
    object gives the desired object back. *)
Hypothesis Hstruct : ∀ p, kind_of p = KStruct.



End StructDecoder.

(** ** Properties of the positive patch, for every Go type *)


(** C3 (amended).  If every field the desired object sets already has the
    same value in the live object, the patch is still not empty, unless the
    desired object is: it has exactly the top-level fields of the desired
    object, and every top-level scalar or array of the desired object is in
    it with its value. *)
Theorem Data_noop_stability `{T : GoType} (L D : Object) :
  subobj (JObj D) (JObj L) = true →
  ∃ C : Object,
    Data (mergeFrom L) D = Ok (JObj C) ∧
    dom C = dom D ∧
    (C = ∅ ↔ D = ∅) ∧
    (∀ k v, D !! k = Some v → is_object v = false → C !! k = Some v).
Proof.
  intros Hsub. exists (candidate L D).
  split; [reflexivity|]. split; [apply candidate_dom|].
  split; [apply candidate_empty_iff|].
  intros k v HD Hv.
  destruct (proj1 (subobj_obj D L) Hsub k v HD) as (w & HL & Hvw).
  apply subobj_leaf in Hvw as ->; [|done].
  by apply candidate_unchanged_member.
Qed.



(** X3.  With the target itself as [from] the raw delta is empty, and [Data]
    returns the serialization of the whole target, [null] members included. *)
Theorem Data_self_diff `{T : GoType} (D : Object) :
  CreateMergePatch (JObj D) (JObj D) = Ok (JObj ∅) ∧
  Data (mergeFrom D) D = Ok (JObj D).
Proof.
  split.
  - change (Ok (JObj (getDiff (decodeFloat <$> D) (decodeFloat <$> D)))
            = Ok (JObj (∅ : Object))).
    by rewrite getDiff_self.
  - rewrite Data_candidate. unfold candidate.
    by rewrite getDiff_self, decodeInto_empty.
Qed.

(** ** [Data] leaves the objects it is given alone *)

Lemma Heap_Data_run `{T : GoType}
    (h : Heap.heap) (lfrom lobj : Heap.loc) (L D : Object) :
  h !! lfrom = Some L → h !! lobj = Some D →
  Heap.Data (Heap.mergeFrom lfrom) lobj h =
    (<[fresh (dom h) := candidate L D]> h, Data (mergeFrom L) D).
Proof.
  intros HL HD.
  unfold Heap.Data, Heap.bind, Heap.Marshal, Heap.CreateMergePatch,
    Heap.DeepCopyObject, Heap.Unmarshal. simpl.
  rewrite HL, HD. simpl. rewrite HD. simpl.
  rewrite lookup_insert_eq. cbn beta iota.
  rewrite lookup_insert_eq, insert_insert_eq.
  reflexivity.
Qed.

Lemma Heap_fresh_frame (h : Heap.heap) (o : Object) (l : Heap.loc) :
  is_Some (h !! l) → <[fresh (dom h) := o]> h !! l = h !! l.
Proof.
  intros Hl. apply lookup_insert_ne. intros <-.
  apply elem_of_dom in Hl. by apply is_fresh in Hl.
Qed.

(** C10.  [Data] mutates neither the [from] object nor the target: whatever
    the heap, with [from] at one location and the target at another (or the
    same), [Data] returns what the computation on the two values returns, and
    afterwards both locations, and every other location in use, hold what
    they held before.  The fold writes to the copy only. *)
Theorem Data_is_read_only `{T : GoType}
    (h : Heap.heap) (lfrom lobj : Heap.loc) (L D : Object) :
  h !! lfrom = Some L →
  h !! lobj = Some D →
  ∃ h',
    Heap.Data (Heap.mergeFrom lfrom) lobj h = (h', Data (mergeFrom L) D) ∧
    h' !! lfrom = Some L ∧
    h' !! lobj = Some D ∧
    (∀ l, is_Some (h !! l) → h' !! l = h !! l).
Proof.
  intros HL HD. eexists. split; [by apply Heap_Data_run|].
  assert (∀ l, is_Some (h !! l) →
    <[fresh (dom h) := candidate L D]> h !! l = h !! l) as Hframe.
  { intros l Hl. apply lookup_insert_ne. intros <-.
    apply elem_of_dom in Hl. by apply is_fresh in Hl. }
  split; [|split]; [| |done].
  - rewrite Hframe; eauto.
  - rewrite Hframe; eauto.
Qed.

(** X9.  [Data] can be asked again: called a second time with the same
    pointers, on the heap the first call left, it returns the same bytes, and
    the two objects are still what they were. *)
Theorem Data_is_repeatable `{T : GoType}
    (h : Heap.heap) (lfrom lobj : Heap.loc) (L D : Object) :
  h !! lfrom = Some L →
  h !! lobj = Some D →
  ∃ h1 h2 bytes,
    Heap.Data (Heap.mergeFrom lfrom) lobj h = (h1, Ok bytes) ∧
    Heap.Data (Heap.mergeFrom lfrom) lobj h1 = (h2, Ok bytes) ∧
    h2 !! lfrom = Some L ∧
    h2 !! lobj = Some D.
Proof.
  intros HL HD.
  assert (<[fresh (dom h) := candidate L D]> h !! lfrom = Some L) as HL1
    by (rewrite Heap_fresh_frame; eauto).
  assert (<[fresh (dom h) := candidate L D]> h !! lobj = Some D) as HD1
    by (rewrite Heap_fresh_frame; eauto).
  eexists _, _, (JObj (candidate L D)).
  split; [by apply Heap_Data_run|].
  split; [by apply Heap_Data_run|].
  split; rewrite Heap_fresh_frame; eauto.
Qed.

(** ** The phase dispatcher: properties *)

(** C5.  One call of [Apply] appends to the post actions according to the
    phase alone: the replace action, and nothing else, in the phases
    Initialization and Deploying; the patch action, and nothing else, in the
    phase Running; nothing in any other phase.  At most one action is
    registered, the rest of the environment is unchanged and [Apply] returns
    no error. *)
Theorem Apply_registers_by_phase (t : deployerTrait) (e : Environment) :
  ∃ registered : list PostAction,
    Apply t e = (with_PostActions e (PostActions e ++ registered), None) ∧
    (Phase (Status (Integration e)) = IntegrationPhaseInitialization ∨
     Phase (Status (Integration e)) = IntegrationPhaseDeploying →
       registered = [ReplaceAction]) ∧
    (Phase (Status (Integration e)) = IntegrationPhaseRunning →
       registered = [PatchAction]) ∧
    (Phase (Status (Integration e)) ≠ IntegrationPhaseInitialization →
     Phase (Status (Integration e)) ≠ IntegrationPhaseDeploying →
     Phase (Status (Integration e)) ≠ IntegrationPhaseRunning →
       registered = []) ∧
    length registered ≤ 1.
Proof.
  unfold Apply.
  destruct (decide (Phase (Status (Integration e)) = IntegrationPhaseInitialization
                    ∨ Phase (Status (Integration e)) = IntegrationPhaseDeploying))
    as [Hrep|Hrep].
  - exists [ReplaceAction]. split; [done|]. split; [done|]. split; [|split].
    + intros HR. rewrite HR in Hrep. by destruct Hrep.
    + intros H1 H2. by destruct Hrep.
    + simpl; lia.
  - destruct (decide (Phase (Status (Integration e)) = IntegrationPhaseRunning))
      as [Hrun|Hrun].
    + exists [PatchAction]. split; [done|]. split; [done|]. split; [done|].
      split; [done|simpl; lia].
    + exists []. split.
      * destruct e. unfold with_PostActions. simpl. by rewrite app_nil_r.
      * split; [done|]. split; [done|]. split; [done|simpl; lia].
Qed.

Lemma Apply_registers_by_phase_witness :
  PostActions (Apply newDeployerTrait (exEnv "Deploying" [exDesired])).1 = [ReplaceAction] ∧
  PostActions (Apply newDeployerTrait (exEnv "Running" [exDesired])).1 = [PatchAction] ∧
  PostActions (Apply newDeployerTrait (exEnv "Error" [exDesired])).1 = [].
Proof.
  split; [|split].
  - destruct (Apply_registers_by_phase newDeployerTrait (exEnv "Deploying" [exDesired]))
      as (reg & -> & Hrep & _). simpl. f_equal. apply Hrep. by right.
  - destruct (Apply_registers_by_phase newDeployerTrait (exEnv "Running" [exDesired]))
      as (reg & -> & _ & Hrun & _). simpl. f_equal. by apply Hrun.
  - destruct (Apply_registers_by_phase newDeployerTrait (exEnv "Error" [exDesired]))
      as (reg & -> & _ & _ & Hother & _). simpl. f_equal. by apply Hother.
Defined.

(** C9.  [Configure] returns [true] exactly when the phase of the integration
    is Initialization, Deploying or Running, [false] in every other phase, and
    never an error. *)
Theorem Configure_applicable (t : deployerTrait) (e : Environment) :
  Configure t e =
    (bool_decide
       (Phase (Status (Integration e)) = IntegrationPhaseInitialization ∨
        Phase (Status (Integration e)) = IntegrationPhaseDeploying ∨
        Phase (Status (Integration e)) = IntegrationPhaseRunning),
     None).
Proof.
  unfold Configure, IntegrationInPhase. simpl. f_equal.
  by rewrite !bool_decide_or, orb_false_r.
Qed.

(** X1.  [Configure] and [Apply] agree on the phases: when [Configure]
    answers [true], [Apply] appends exactly one post action and changes
    nothing else; when it answers [false], [Apply] returns the environment as
    it was. *)
Theorem Configure_agrees_with_Apply (t : deployerTrait) (e : Environment) :
  ((Configure t e).1 = true ∧
   ∃ a, Apply t e = (with_PostActions e (PostActions e ++ [a]), None)) ∨
  ((Configure t e).1 = false ∧ Apply t e = (e, None)).
Proof.
  unfold Configure, Apply, IntegrationInPhase. simpl.
  destruct (decide (Phase (Status (Integration e)) = IntegrationPhaseInitialization
                    ∨ Phase (Status (Integration e)) = IntegrationPhaseDeploying))
    as [Hrep|Hrep].
  - left. split; [|by eexists].
    rewrite !orb_true_iff, !bool_decide_eq_true. tauto.
  - destruct (decide (Phase (Status (Integration e)) = IntegrationPhaseRunning))
      as [Hrun|Hrun].
    + left. split; [|by eexists].
      rewrite !orb_true_iff, !bool_decide_eq_true. tauto.
    + right. split; [|done].
      rewrite !orb_false_iff, !bool_decide_eq_false. tauto.
Qed.

(** X2.  [Apply] keeps what is registered and does not look at it: the
    actions registered before stay in front, in order; a second call appends
    the same action again; and the resources and the answer of [Configure]
    are what they were before the call. *)
Theorem Apply_accumulates (t : deployerTrait) (e : Environment) :
  ∃ registered : list PostAction,
    PostActions (Apply t e).1 = PostActions e ++ registered ∧
    PostActions (Apply t (Apply t e).1).1 = PostActions e ++ registered ++ registered ∧
    Resources (Apply t e).1 = Resources e ∧
    Configure t (Apply t e).1 = Configure t e.
Proof.
  unfold Configure, IntegrationInPhase, Apply.
  destruct (decide (Phase (Status (Integration e)) = IntegrationPhaseInitialization
                    ∨ Phase (Status (Integration e)) = IntegrationPhaseDeploying))
    as [Hrep|Hrep]; simpl.
  - exists [ReplaceAction]. rewrite decide_True by done. simpl.
    by rewrite <-app_assoc.
  - destruct (decide (Phase (Status (Integration e)) = IntegrationPhaseRunning))
      as [Hrun|Hrun]; simpl.
    + exists [PatchAction]. rewrite decide_False, decide_True by done. simpl.
      by rewrite <-app_assoc.
    + exists []. rewrite !decide_False by done. by rewrite !app_nil_r.
Qed.

(** ** The post actions *)

Section PostActionProperties.
Context {St : Type}.
Variable c : Client St.
Variable ReplaceResources : St → list Object → St * option error.
Variable ObjectKeyFromObject : Object → result ObjectKey.

Local Abbreviation patchOne' := (patchOne c ObjectKeyFromObject).
Local Abbreviation patchLoop' := (patchLoop c ObjectKeyFromObject).
Local Abbreviation run' := (runPostAction c ReplaceResources ObjectKeyFromObject).

Lemma patchLoop_app (st : St) (pre post : list Object) :
  patchLoop' st (pre ++ post) =
  match patchLoop' st pre with
  | (st1, None) => patchLoop' st1 post
  | (st1, Some err) => (st1, Some err)
  end.
Proof.
  revert st. induction pre as [|r pre IH]; intros st; simpl; [done|].
  destruct (patchOne' st r) as [st' [err|]]; [done|]. apply IH.
Qed.

(** A failing run stops at the first resource whose iteration fails. *)
Lemma patchLoop_Some (st st' : St) (items : list Object) (err : error) :
  patchLoop' st items = (st', Some err) →
  ∃ pre r post st1,
    items = pre ++ r :: post ∧
    patchLoop' st pre = (st1, None) ∧
    patchOne' st1 r = (st', Some err).
Proof.
  revert st. induction items as [|r items IH]; intros st; simpl; [done|].
  destruct (patchOne' st r) as [st1 [e|]] eqn:Hone.
  - intros [= -> ->]. by exists [], r, items, st.
  - intros (pre & r' & post & st2 & -> & Hpre & Hr')%IH.
    exists (r :: pre), r', post, st2. simpl. by rewrite Hone.
Qed.

(** A run without error went through every resource without error. *)
Lemma patchLoop_None (st st' : St) (items : list Object) :
  patchLoop' st items = (st', None) →
  ∀ pre r post, items = pre ++ r :: post →
  ∃ st1 st2, patchLoop' st pre = (st1, None) ∧ patchOne' st1 r = (st2, None).
Proof.
  intros Hrun pre r post ->.
  rewrite patchLoop_app in Hrun.
  destruct (patchLoop' st pre) as [st1 [e|]]; [done|].
  simpl in Hrun. destruct (patchOne' st1 r) as [st2 [e|]] eqn:Hone; [done|].
  by exists st1, st2.
Qed.

(** Where the error of one iteration comes from. *)
Lemma patchOne_Some (st st' : St) (r : Object) (err : error) :
  patchOne' st r = (st', Some err) →
  (ObjectKeyFromObject r = Err err ∧ st' = st) ∨
  (∃ key, ObjectKeyFromObject r = Ok key ∧
          Get c st key (DeepCopyObject r) = (st', Err err)) ∨
  (∃ key st1 object err0,
          ObjectKeyFromObject r = Ok key ∧
          Get c st key (DeepCopyObject r) = (st1, Ok object) ∧
          Patch c st1 r (mergeFrom object) = (st', Some err0) ∧
          err = Wrap err0 "error during patch resource").
Proof.
  unfold patchOne.
  destruct (ObjectKeyFromObject r) as [key|e]; [|intros [= -> ->]; by left].
  destruct (Get c st key (DeepCopyObject r)) as [st1 [object|e]] eqn:HG.
  - destruct (Patch c st1 r (mergeFrom object)) as [st2 [e|]] eqn:HP; [|done].
    intros [= -> <-]. right; right. by exists key, st1, object, e.
  - intros [= -> ->]. right; left. by exists key.
Qed.

Lemma patchOne_None (st st' : St) (r : Object) :
  patchOne' st r = (st', None) →
  ∃ key st1 object,
    ObjectKeyFromObject r = Ok key ∧
    Get c st key (DeepCopyObject r) = (st1, Ok object) ∧
    Patch c st1 r (mergeFrom object) = (st', None).
Proof.
  unfold patchOne.
  destruct (ObjectKeyFromObject r) as [key|e]; [|done].
  destruct (Get c st key (DeepCopyObject r)) as [st1 [object|e]] eqn:HG; [|done].
  destruct (Patch c st1 r (mergeFrom object)) as [st2 [e|]] eqn:HP; [done|].
  intros [= ->]. by exists key, st1, object.
Qed.

(** C7 (amended).  No error of a post action is swallowed, and the errors of
    the store operations carry the tag of their stage: the replace action
    returns the error of [ReplaceResources] wrapped with "error during replace
    resource"; the patch action, at the first resource where a step fails,
    returns the error of [Patch] wrapped with "error during patch resource",
    but the errors of the identity resolution and of [Get] (a missing live
    resource among them) as they are, without a tag.  A post action that
    returns no error ran every step without error. *)
Theorem post_action_errors (env : Environment) (st : St) :
  (∀ st' err,
     ReplaceResources st (Resources env) = (st', Some err) →
     run' ReplaceAction env st = (st', Some (Wrap err "error during replace resource"))) ∧
  (∀ st',
     run' ReplaceAction env st = (st', None) →
     ReplaceResources st (Resources env) = (st', None)) ∧
  (∀ st' err,
     run' PatchAction env st = (st', Some err) →
     ∃ pre r post st1,
       Resources env = pre ++ r :: post ∧
       patchLoop' st pre = (st1, None) ∧
       ((ObjectKeyFromObject r = Err err ∧ st' = st1) ∨
        (∃ key, ObjectKeyFromObject r = Ok key ∧
                Get c st1 key (DeepCopyObject r) = (st', Err err)) ∨
        (∃ key st2 object err0,
                ObjectKeyFromObject r = Ok key ∧
                Get c st1 key (DeepCopyObject r) = (st2, Ok object) ∧
                Patch c st2 r (mergeFrom object) = (st', Some err0) ∧
                err = Wrap err0 "error during patch resource"))) ∧
  (∀ st',
     run' PatchAction env st = (st', None) →
     ∀ pre r post, Resources env = pre ++ r :: post →
     ∃ st1 key st2 object st3,
       patchLoop' st pre = (st1, None) ∧
       ObjectKeyFromObject r = Ok key ∧
       Get c st1 key (DeepCopyObject r) = (st2, Ok object) ∧
       Patch c st2 r (mergeFrom object) = (st3, None)).
Proof.
  split; [|split; [|split]].
  - intros st' err HR. simpl. unfold replaceAll. by rewrite HR.
  - intros st'. simpl. unfold replaceAll.
    destruct (ReplaceResources st (Resources env)) as [st1 [e|]]; [done|].
    by intros [= ->].
  - intros st' err Hrun. simpl in Hrun. unfold patchAll in Hrun.
    apply patchLoop_Some in Hrun as (pre & r & post & st1 & Hitems & Hpre & Hone).
    exists pre, r, post, st1. split; [done|]. split; [done|].
    by apply patchOne_Some.
  - intros st' Hrun pre r post Hitems. simpl in Hrun. unfold patchAll in Hrun.
    destruct (patchLoop_None _ _ _ Hrun pre r post Hitems) as (st1 & st3 & Hpre & Hone).
    apply patchOne_None in Hone as (key & st2 & object & ? & ? & ?).
    by exists st1, key, st2, object, st3.
Qed.

(** C8.  The patch action goes through the resources in order and stops at
    the first error: when the resources before [r] were patched without
    error, taking the store from [st] to [st1], and the iteration for [r]
    fails there with [err] (at the identity resolution, at [Get] or at
    [Patch]), the action returns [err] with the store as that iteration left
    it, whatever resources come after [r]: none of them is attempted. *)
Theorem patch_action_first_error_aborts
    (env : Environment) (pre : list Object) (r : Object) (post : list Object)
    (st st1 st2 : St) (err : error) :
  Resources env = pre ++ r :: post →
  patchLoop' st pre = (st1, None) →
  patchOne' st1 r = (st2, Some err) →
  run' PatchAction env st = (st2, Some err) ∧
  patchLoop' st (pre ++ [r]) = (st2, Some err).
Proof.
  intros Hitems Hpre Hone. simpl. unfold patchAll.
  rewrite Hitems, !patchLoop_app, Hpre. simpl. by rewrite Hone.
Qed.

End PostActionProperties.

(** X8.  The patch action over a list of resources in two parts is the action
    over the first part followed, when that returned no error, by the action
    over the second part on the store the first left. *)
Theorem patch_loop_composes {St : Type} (c : Client St)
    (ObjectKeyFromObject : Object → result ObjectKey)
    (st st1 : St) (pre post : list Object) :
  patchLoop c ObjectKeyFromObject st pre = (st1, None) →
  patchLoop c ObjectKeyFromObject st (pre ++ post)
  = patchLoop c ObjectKeyFromObject st1 post.
Proof. intros Hpre. by rewrite patchLoop_app, Hpre. Qed.


(** ** The running examples

    From here on the Go type is a plain struct unless another one is
    named. *)

Global Existing Instance structType.

Example getDiff_example : getDiff exLive exDesired = exNaive.
Proof. vm_compute. reflexivity. Qed.

Example Data_example : Data (mergeFrom exLive) exDesired = Ok (JObj exDesired).
Proof. vm_compute. reflexivity. Qed.

(** The patch library compares numbers as [float64]: [2^53 + 1] is [2^53]. *)
Example float64_of_Z_example :
  float64_of_Z (2 ^ 53 + 1) = (2 ^ 53)%Z ∧ float64_of_Z (2 ^ 53 + 3) = (2 ^ 53 + 4)%Z.
Proof. vm_compute. done. Qed.

(** Inside array elements a [null] member and a missing one are the same to
    the patch library. *)
Example getDiff_null_in_array_example :
  getDiff {[ "l" := JArr [JObj {[ "a" := JNull ]}] ]} {[ "l" := JArr [JObj ∅] ]} = ∅.
Proof. vm_compute. reflexivity. Qed.

(** A [null] member of the desired object stays in the patch. *)
Example Data_null_member_example :
  Data (mergeFrom {[ "a" := JNum 1 ]}) {[ "a" := JNull ]} = Ok (JObj {[ "a" := JNull ]}).
Proof. vm_compute. reflexivity. Qed.


(** C3, as stated, fails: the desired object is a sub-object of the live
    one, and the patch is the desired object, not the empty patch. *)
Lemma Data_noop_patch_not_empty :
  subobj (JObj exDesired) (JObj exPatched) = true ∧
  Data (mergeFrom exPatched) exDesired = Ok (JObj exDesired) ∧
  JObj exDesired ≠ JObj ∅.
Proof.
  split; [vm_compute; reflexivity|]. split; [vm_compute; reflexivity|].
  intros H. apply (f_equal (λ v, asObj (Some v) !! "name")) in H.
  vm_compute in H. discriminate.
Qed.

Lemma Data_noop_stability_witness :
  subobj (JObj exDesired) (JObj exPatched) = true ∧
  ∃ C : Object,
    Data (mergeFrom exPatched) exDesired = Ok (JObj C) ∧
    dom C = dom exDesired ∧
    (C = ∅ ↔ exDesired = ∅) ∧
    (∀ k v, exDesired !! k = Some v → is_object v = false → C !! k = Some v).
Proof.
  assert (subobj (JObj exDesired) (JObj exPatched) = true) as H
    by (vm_compute; reflexivity).
  split; [exact H|]. exact (Data_noop_stability exPatched exDesired H).
Defined.


Lemma Data_is_read_only_witness :
  ∃ h',
    Heap.Data (Heap.mergeFrom 1%positive) 2%positive exHeap =
      (h', Data (mergeFrom exLive) exDesired) ∧
    h' !! 1%positive = Some exLive ∧
    h' !! 2%positive = Some exDesired.
Proof.
  destruct (Data_is_read_only exHeap 1%positive 2%positive exLive exDesired)
    as (h' & Hrun & Hfrom & Hobj & _); [reflexivity|reflexivity|].
  exists h'. split; [exact Hrun|]. split; [exact Hfrom|exact Hobj].
Defined.

Lemma Data_is_repeatable_witness :
  ∃ h1 h2 bytes,
    Heap.Data (Heap.mergeFrom 1%positive) 2%positive exHeap = (h1, Ok bytes) ∧
    Heap.Data (Heap.mergeFrom 1%positive) 2%positive h1 = (h2, Ok bytes) ∧
    h2 !! 1%positive = Some exLive ∧
    h2 !! 2%positive = Some exDesired.
Proof.
  exact (Data_is_repeatable exHeap 1%positive 2%positive exLive exDesired
           eq_refl eq_refl).
Defined.

(** ** The post actions on the in-memory store *)

(** One iteration on the in-memory store: a live object is fetched, the
    positive patch against it is computed and folded into it. *)
Lemma memClient_patchOne (st : Store) (r L : Object) (key : ObjectKey) :
  memKey r = Ok key →
  live st !! key = Some L →
  patchOne memClient memKey st r =
    ({| live := <[key := MergePatch L (candidate L r)]> (live st);
        calls := calls st ++ [CallGet key; CallPatch key (JObj (candidate L r))] |},
     None).
Proof.
  intros Hkey HL. unfold patchOne, memClient. simpl.
  rewrite Hkey. unfold memGet. simpl. rewrite HL.
  unfold memPatch. rewrite Hkey, Data_candidate. simpl. rewrite HL. simpl.
  by rewrite <-app_assoc.
Qed.

(** A missing live object stops the iteration at [Get], with [NotFound] as
    [Get] returned it. *)
Lemma memClient_patchOne_missing (st : Store) (r : Object) (key : ObjectKey) :
  memKey r = Ok key →
  live st !! key = None →
  patchOne memClient memKey st r = (logged st (CallGet key), Some NotFound).
Proof.
  intros Hkey HL. unfold patchOne, memClient. simpl.
  rewrite Hkey. unfold memGet. simpl. by rewrite HL.
Qed.

(** C7, as stated, fails: the live resource [b] is missing, [Get] returns
    [NotFound], and the patch action returns that error as it is, not wrapped
    with "error during patch resource". *)
Lemma missing_live_resource_is_not_wrapped :
  runPostAction memClient memReplace memKey PatchAction
    (exEnv "Running" [exNamed "b" 5]) exStore
  = (logged exStore (CallGet (exKey "b")), Some NotFound) ∧
  NotFound ≠ Wrap NotFound "error during patch resource".
Proof. split; [vm_compute; reflexivity|discriminate]. Qed.

(** The desired object of the running example has no [metadata]: replacing it
    fails at the identity resolution, and the replace action wraps that. *)
Lemma post_action_errors_witness :
  runPostAction memClient memReplace memKey ReplaceAction
    (exEnv "Deploying" [exDesired]) exStore
  = (exStore,
     Some (Wrap (ErrOther "object does not implement the Object interfaces")
                "error during replace resource")).
Proof.
  destruct (post_action_errors memClient memReplace memKey
              (exEnv "Deploying" [exDesired]) exStore) as (Hreplace & _).
  apply Hreplace. vm_compute. reflexivity.
Defined.

(** On the in-memory store: [a] is patched, [b] is missing and stops the
    action, and the log shows no call for [c]. *)
Lemma patch_action_first_error_aborts_witness :
  Resources (exEnv "Running" [exNamed "a" 5; exNamed "b" 5; exNamed "c" 5])
    = [exNamed "a" 5] ++ exNamed "b" 5 :: [exNamed "c" 5] ∧
  patchLoop memClient memKey exStore [exNamed "a" 5] = (exStore1, None) ∧
  patchOne memClient memKey exStore1 (exNamed "b" 5) = (exStore2, Some NotFound) ∧
  runPostAction memClient memReplace memKey PatchAction
    (exEnv "Running" [exNamed "a" 5; exNamed "b" 5; exNamed "c" 5]) exStore
    = (exStore2, Some NotFound) ∧
  calls exStore2 =
    [CallGet (exKey "a"); CallPatch (exKey "a") (JObj (exNamed "a" 5));
     CallGet (exKey "b")].
Proof.
  assert (patchLoop memClient memKey exStore [exNamed "a" 5] = (exStore1, None)) as H1
    by (vm_compute; reflexivity).
  assert (patchOne memClient memKey exStore1 (exNamed "b" 5) = (exStore2, Some NotFound)) as H2
    by (vm_compute; reflexivity).
  split; [reflexivity|]. split; [exact H1|]. split; [exact H2|]. split; [|reflexivity].
  exact (proj1 (patch_action_first_error_aborts memClient memReplace memKey
    (exEnv "Running" [exNamed "a" 5; exNamed "b" 5; exNamed "c" 5])
    [exNamed "a" 5] (exNamed "b" 5) [exNamed "c" 5]
    exStore exStore1 exStore2 NotFound eq_refl H1 H2)).
Defined.

Lemma patch_loop_composes_witness :
  patchLoop memClient memKey exStore [exNamed "a" 5] = (exStore1, None) ∧
  patchLoop memClient memKey exStore ([exNamed "a" 5] ++ [exNamed "c" 5])
  = patchLoop memClient memKey exStore1 [exNamed "c" 5].
Proof.
  assert (patchLoop memClient memKey exStore [exNamed "a" 5] = (exStore1, None)) as H
    by (vm_compute; reflexivity).
  split; [exact H|].
  exact (patch_loop_composes memClient memKey exStore exStore1
           [exNamed "a" 5] [exNamed "c" 5] H).
Defined.

(** ** Where the patch is not positive *)

(** C1 (code bug).  The live ConfigMap has the labels [a] and [b], the
    desired one only [b].  The raw delta carries [labels.a: null]; decoded
    into the copy of the desired object, whose labels are a Go
    [map[string]string], it leaves [labels.a: ""] in the patch.  Applied to
    the live object the patch blanks a label the desired object never
    mentions. *)
Theorem Data_blanks_unmentioned_label :
  @Data configMapType (mergeFrom exLabelsLive) exLabelsDesired
    = Ok (JObj exLabelsPatch) ∧
  unmentioned ["metadata"; "labels"; "a"] (JObj exLabelsDesired) = true ∧
  lookup_path ["metadata"; "labels"; "a"] (JObj exLabelsLive) = Some (JStr "1") ∧
  ∃ L', applyMergePatch exLabelsLive (JObj exLabelsPatch) = Ok L' ∧
        lookup_path ["metadata"; "labels"; "a"] (JObj L') = Some (JStr "").
Proof.
  split; [vm_compute; reflexivity|]. split; [vm_compute; reflexivity|].
  split; [vm_compute; reflexivity|].
  eexists. split; [reflexivity|]. vm_compute. reflexivity.
Qed.


(** Beyond [2^53] a second round does change the live object: the first
    patch carries the rounded number, the second, computed from an empty
    delta, the exact one. *)
Example Data_applied_twice_rounding_example :
  Data (mergeFrom {[ "a" := JNum 0 ]}) {[ "a" := JNum (2 ^ 53 + 1) ]}
    = Ok (JObj {[ "a" := JNum (2 ^ 53) ]}) ∧
  Data (mergeFrom {[ "a" := JNum (2 ^ 53) ]}) {[ "a" := JNum (2 ^ 53 + 1) ]}
    = Ok (JObj {[ "a" := JNum (2 ^ 53 + 1) ]}).
Proof. split; vm_compute; reflexivity. Qed.

(** Under a [map[string]interface{}] the [null] of the raw delta stays a
    [null]: the patch deletes [free.y], which the desired object does not
    mention. *)
Example Data_deletes_unmentioned_member_example :
  @Data freeType (mergeFrom {[ "free" := JObj {[ "x" := JNum 1; "y" := JNum 2 ]} ]})
                 {[ "free" := JObj {[ "x" := JNum 1 ]} ]}
    = Ok (JObj {[ "free" := JObj {[ "x" := JNum 1; "y" := JNull ]} ]}) ∧
  applyMergePatch {[ "free" := JObj {[ "x" := JNum 1; "y" := JNum 2 ]} ]}
                  (JObj {[ "free" := JObj {[ "x" := JNum 1; "y" := JNull ]} ]})
    = Ok {[ "free" := JObj {[ "x" := JNum 1 ]} ]}.
Proof. split; vm_compute; reflexivity. Qed.
